(** * node-mvc-demo: the item controller and the application bootstrap

    A shallow embedding of

    - [controllers/itemController.js]: [getItems], [addItem], [deleteItem];
    - [models/item.js]: the [Item] schema (one required [name] string);
    - [routes/itemRoutes.js]: the two routes;
    - [config/database.js]: [connectToDatabase];
    - [app.js]: the start-up script.

    The document database and the HTTP framework are outside the repository.
    They are represented by the smallest model the handlers can observe: a
    collection keyed by identifier, whose round trips reject when the store
    is unreachable, a request whose body the parser may have left out and
    whose [name] may be text, an array or an object, and a response object
    that records what was sent. *)

From stdpp Require Import gmap strings list fin_maps.

(* String literals everywhere; arithmetic and list notations stay on top. *)
Open Scope string_scope.
Open Scope nat_scope.
Open Scope list_scope.

(** ** The data model *)

(** Identifiers are opaque; the store hands out one that is not in use. *)
Abbreviation ObjectId := N.

(** A document of the [Item] collection, as [Item.find()] returns it. *)
Record Item := mkItem { _id : ObjectId; name : string }.

#[global] Instance Item_eq_dec : EqDecision Item.
Proof. solve_decision. Defined.

(** The collection: at most one document per identifier. *)
Abbreviation Collection := (gmap ObjectId string).

(** The round trips a handler issues, in the order they are issued. *)
Inductive StoreCall :=
| CallFind
| CallInsert (doc : Item)
| CallFindByIdAndDelete (id : ObjectId).

(** What the handlers see of the database: the documents, whether a round
    trip can currently reach it, and the log of round trips issued. *)
Record Store := mkStore {
  docs : Collection;
  reachable : bool;
  calls : list StoreCall
}.

Definition log_call (call : StoreCall) (s : Store) : Store :=
  mkStore (docs s) (reachable s) (calls s ++ [call]).

Definition set_docs (m : Collection) (s : Store) : Store :=
  mkStore m (reachable s) (calls s).

(** ** The response object *)

Inductive Payload :=
| Rendered (view : string) (locals : list Item)
| Redirected (location : string)
| Text (body : string).

(** [statusCode] starts at 200; [sent] is [None] until the response ends. *)
Record Response := mkResponse {
  statusCode : N;
  sent : option Payload
}.

#[global] Instance Payload_eq_dec : EqDecision Payload.
Proof. solve_decision. Defined.
#[global] Instance Response_eq_dec : EqDecision Response.
Proof. solve_decision. Defined.

Definition fresh_response : Response := mkResponse 200 None.

(** ** The request object *)

(** [req.params.id] as the driver sees it: either the text of an identifier
    or text that is not one. *)
Inductive IdParam :=
| ValidId (i : ObjectId)
| MalformedId (raw : string).

Inductive Method := GET | HEAD | POST | PUT | DELETE.

(** A value of a parsed form body. With [express.urlencoded({ extended:
    true })] a field is text ([name=Milk]), an array ([name=a&name=b]) or
    an object ([name[x]=y]). *)
#[local] Unset Elimination Schemes.
Inductive Field :=
| FText (s : string)
| FArray (items : list Field)
| FObject (entries : list (string * Field)).
#[local] Set Elimination Schemes.

(** [req.body]: left undefined when the parser found no body it reads, or
    the parsed form with its [name] field, which may be absent. *)
Inductive Body :=
| NoBody
| Parsed (name : option Field).

Record Request := mkRequest {
  method : Method;
  url : string;
  body : Body;
  params_id : IdParam
}.

#[global] Instance IdParam_eq_dec : EqDecision IdParam.
Proof. solve_decision. Defined.
#[global] Instance Method_eq_dec : EqDecision Method.
Proof. solve_decision. Defined.

(** ** Handler computations: state and exceptions *)

Inductive JsError := TypeError | NetworkError | ValidatorError | CastError.

Inductive Completion (A : Type) :=
| Normal (a : A)
| Throw (e : JsError).
Arguments Normal {A} a.
Arguments Throw {A} e.

(** The state a handler threads: the store it talks to and its [res]. *)
Record Ctx := mkCtx { store : Store; res : Response }.

Definition Js (A : Type) : Type := Ctx → Completion A * Ctx.

#[global] Instance Js_ret : MRet Js := λ A a c, (Normal a, c).

#[global] Instance Js_bind : MBind Js := λ A B f m c,
  match m c with
  | (Normal a, c') => f a c'
  | (Throw e, c') => (Throw e, c')
  end.

Definition throw {A} (e : JsError) : Js A := λ c, (Throw e, c).

(** [try { body } catch (err) { handler err }] *)
Definition try_catch {A} (body : Js A) (handler : JsError → Js A) : Js A :=
  λ c, match body c with
       | (Normal a, c') => (Normal a, c')
       | (Throw e, c') => handler e c'
       end.

Definition get_store : Js Store := λ c, (Normal (store c), c).
Definition put_store (s : Store) : Js unit :=
  λ c, (Normal tt, mkCtx s (res c)).
Definition modify_res (f : Response → Response) : Js unit :=
  λ c, (Normal tt, mkCtx (store c) (f (res c))).

(** ** The response methods the handlers use *)

Module Res.

(** [res.status(code)] *)
Definition status (code : N) : Js unit :=
  modify_res (λ r, mkResponse code (sent r)).

(** [res.send(body)] *)
Definition send (body : string) : Js unit :=
  modify_res (λ r, mkResponse (statusCode r) (Some (Text body))).

(** [res.redirect(url)]: status 302 and a [Location] header. *)
Definition redirect (location : string) : Js unit :=
  modify_res (λ r, mkResponse 302 (Some (Redirected location))).

(** [res.render(view, { items })] *)
Definition render (view : string) (items : list Item) : Js unit :=
  modify_res (λ r, mkResponse (statusCode r) (Some (Rendered view items))).

End Res.

(** ** The [Item] model: [models/item.js] over the collection *)

Module ItemModel.

(** The documents of a collection, in the store's order. *)
Definition documents (m : Collection) : list Item :=
  (λ kv, mkItem kv.1 kv.2) <$> map_to_list m.

(** One round trip: log it, then reject if the store cannot be reached. *)
Definition round_trip (call : StoreCall) : Js unit :=
  s ← get_store;
  put_store (log_call call s);;
  if reachable s then mret tt else throw NetworkError.

(** [Item.find()] *)
Definition find : Js (list Item) :=
  round_trip CallFind;;
  s ← get_store;
  mret (documents (docs s)).

(** The [_id] entry of an object, if it has one. *)
Fixpoint entry_id (entries : list (string * Field)) : option Field :=
  match entries with
  | [] => None
  | (k, v) :: rest => if decide (k = "_id") then Some v else entry_id rest
  end.

(** [type: String]: text is taken as it is; an object that carries a
    non-empty text [_id] is taken as that text; an array or any other
    object cannot be cast. *)
Definition cast_string (v : Field) : option string :=
  match v with
  | FText s => Some s
  | FArray _ => None
  | FObject entries =>
      match entry_id entries with
      | Some (FText s) => if decide (s = "") then None else Some s
      | _ => None
      end
  end.

(** [name: { type: String, required: true }]: a value that cannot be cast,
    a missing name and the empty string are all rejected, before any
    round trip. *)
Definition validate (name : option Field) : Js string :=
  match name with
  | None => throw ValidatorError
  | Some v =>
      match cast_string v with
      | None => throw CastError
      | Some n => if decide (n = "") then throw ValidatorError else mret n
      end
  end.

(** [new Item({ name }).save()]: the document gets an identifier that is
    not in use, is validated, and is inserted. *)
Definition save (name : option Field) : Js Item :=
  s ← get_store;
  let id := fresh (dom (docs s)) in
  n ← validate name;
  round_trip (CallInsert (mkItem id n));;
  s ← get_store;
  put_store (set_docs (<[id := n]> (docs s)) s);;
  mret (mkItem id n).

(** [Item.findByIdAndDelete(id)]: text that is not an identifier is
    rejected before any round trip; otherwise the matching document, if
    any, is removed and returned. *)
Definition findByIdAndDelete (id : IdParam) : Js (option Item) :=
  match id with
  | MalformedId _ => throw CastError
  | ValidId i =>
      round_trip (CallFindByIdAndDelete i);;
      s ← get_store;
      put_store (set_docs (delete i (docs s)) s);;
      mret (mkItem i <$> docs s !! i)
  end.

End ItemModel.

(** ** [controllers/itemController.js] *)

(** [const { name } = req.body]: reading a field of an undefined body
    throws. *)
Definition destructure_name (b : Body) : Js (option Field) :=
  match b with
  | NoBody => throw TypeError
  | Parsed name => mret name
  end.

(** [!name]: an absent name and the empty text are falsy; non-empty text,
    arrays and objects are not. *)
Definition falsy (name : option Field) : bool :=
  match name with
  | None => true
  | Some (FText s) => bool_decide (s = "")
  | Some _ => false
  end.

Definition getItems (req : Request) : Js unit :=
  try_catch
    (items ← ItemModel.find;
     Res.render "index" items)
    (λ err,
     Res.status 500;; Res.send "Error fetching items").

Definition addItem (req : Request) : Js unit :=
  try_catch
    (name ← destructure_name (body req);
     if falsy name then Res.redirect "/"
     else
       ItemModel.save name;;
       Res.redirect "/")
    (λ err,
     Res.status 500;; Res.send "Error saving item").

Definition deleteItem (req : Request) : Js unit :=
  try_catch
    (let id := params_id req in
     ItemModel.findByIdAndDelete id;;
     Res.redirect "/")
    (λ err,
     Res.status 500;; Res.send "Error deleting item").

(** Running one handler on one request against a store. *)
Definition Handler := Request → Js unit.

Definition handle (h : Handler) (req : Request) (s : Store)
  : Completion unit * Store * Response :=
  let '(r, c) := h req (mkCtx s fresh_response) in (r, store c, res c).

Definition store_after (h : Handler) (req : Request) (s : Store) : Store :=
  (handle h req s).1.2.
Definition response_of (h : Handler) (req : Request) (s : Store) : Response :=
  (handle h req s).2.
Definition completion_of (h : Handler) (req : Request) (s : Store)
  : Completion unit :=
  (handle h req s).1.1.

(** Requests that reach each handler. *)
Definition no_id : IdParam := MalformedId "".
Definition list_request : Request := mkRequest GET "/" NoBody no_id.
Definition add_request (name : option string) : Request :=
  mkRequest POST "/add" (Parsed (FText <$> name)) no_id.
Definition delete_request (id : IdParam) : Request :=
  mkRequest POST "/delete" (Parsed None) id.


(** [name=a&name=b] *)
Definition two_names_request : Request :=
  mkRequest POST "/add" (Parsed (Some (FArray [FText "a"; FText "b"]))) no_id.

(** The name an Add request submits, if it submits one. *)
Definition submitted_name (req : Request) : option Field :=
  match body req with
  | NoBody => None
  | Parsed name => name
  end.

(** The text [addItem] goes on to save: the body is there, the name passes
    [!name], and the schema casts it to non-empty text. *)
Definition accepted_name (req : Request) : option string :=
  match body req with
  | NoBody => None
  | Parsed name =>
      if falsy name then None
      else match name with
           | Some v =>
               match ItemModel.cast_string v with
               | Some n => if decide (n = "") then None else Some n
               | None => None
               end
           | None => None
           end
  end.

(** The guard [if (!name)] is reached and taken. *)
Definition turned_away (req : Request) : bool :=
  match body req with
  | NoBody => false
  | Parsed name => falsy name
  end.

(** ** [routes/itemRoutes.js] *)

(** The three exported handlers. *)
Inductive Operation := OpList | OpAdd | OpDelete.

Definition handler_of (op : Operation) : Handler :=
  match op with
  | OpList => getItems
  | OpAdd => addItem
  | OpDelete => deleteItem
  end.

(** The character [?], code 63. *)
Definition question_mark : Ascii.ascii := Ascii.ascii_of_N 63.

(** The path of a request target: what comes before the query string. *)
Fixpoint pathname (url : string) : string :=
  match url with
  | EmptyString => EmptyString
  | String c rest =>
      if Ascii.eqb c question_mark then EmptyString
      else String c (pathname rest)
  end.

Definition lower_ascii (c : Ascii.ascii) : Ascii.ascii :=
  let n := Ascii.N_of_ascii c in
  if ((65 <=? n) && (n <=? 90))%N then Ascii.ascii_of_N (n + 32) else c.

Fixpoint lowercase (s : string) : string :=
  match s with
  | EmptyString => EmptyString
  | String c rest => String (lower_ascii c) (lowercase rest)
  end.

(** How [express.Router()] matches a route: on the path alone, whatever
    the case of its letters, with or without one trailing slash. *)
Definition path_matches (route url : string) : bool :=
  let path := lowercase (pathname url) in
  bool_decide (path = route) || bool_decide (path = route +:+ "/").

(** [router.get('/', getItems); router.post('/add', addItem)]; a [GET]
    route also serves [HEAD]; no route is bound to [deleteItem]. *)
Definition itemRoutes (req : Request) : option Operation :=
  match method req with
  | GET | HEAD => if path_matches "/" (url req) then Some OpList else None
  | POST => if path_matches "/add" (url req) then Some OpAdd else None
  | PUT | DELETE => None
  end.

(** ** [config/database.js] and [app.js] *)

Inductive Middleware :=
| Urlencoded
| Static (root : string)
| Router (mount : string).

#[global] Instance Middleware_eq_dec : EqDecision Middleware.
Proof. solve_decision. Defined.

(** How [app.listen] can fail: the port is not a port number and the call
    throws, or the port cannot be bound and the server emits [error] once
    the script has finished. Nothing in the application handles either. *)
Inductive ListenFailure := BadPort | BindError.

(** What the process does, and what happens to it, in order. [AppListen]
    records the call to [app.listen]. *)
Inductive Event :=
| DotenvConfig
| MongooseConnect (uri : option string)
| MongooseSettled (connected : bool)
| ConsoleLog (msg : string)
| ConsoleError (msg : string)
| ProcessExit (code : Z)
| AppSet (setting value : string)
| AppUse (mw : Middleware)
| AppListen (port : string)
| Uncaught (failure : ListenFailure)
| Responded (req : Request) (r : option Response).

(** What [app.listen] meets when it is called: the port is bound, or the
    call fails in one of the two ways above. *)
Inductive ListenResult := Bound | Failed (failure : ListenFailure).

(** The surroundings of the process: [process.env] once [dotenv.config()]
    has run, and what becomes of the call to [app.listen]. *)
Record Env := mkEnv {
  MONGO_URI : option string;
  PORT : option string;
  LISTEN : ListenResult
}.

Inductive Status := Running | Exited (code : Z).

(** The promise of [mongoose.connect]. *)
Inductive Connection := NotStarted | Connecting | Settled (connected : bool).

Record Process := mkProcess {
  status : Status;
  connection : Connection;
  listening : option string;
  db : Store;
  trace : list Event
}.

Definition initial (s : Store) : Process :=
  mkProcess Running NotStarted None s [].

(** A statement runs only while the process is alive. *)
Definition alive (f : Process → Process) (p : Process) : Process :=
  match status p with
  | Running => f p
  | Exited _ => p
  end.

Definition emit (e : Event) : Process → Process :=
  alive (λ p, mkProcess (status p) (connection p) (listening p) (db p)
                (trace p ++ [e])).

Definition set_connection (c : Connection) : Process → Process :=
  alive (λ p, mkProcess (status p) c (listening p) (db p) (trace p)).

Definition set_listening (port : string) : Process → Process :=
  alive (λ p, mkProcess (status p) (connection p) (Some port) (db p)
                (trace p)).

Definition set_db (s : Store) : Process → Process :=
  alive (λ p, mkProcess (status p) (connection p) (listening p) s (trace p)).

(** [process.exit(code)] *)
Definition process_exit (code : Z) : Process → Process :=
  alive (λ p, mkProcess (Exited code) (connection p) (listening p) (db p)
                (trace p ++ [ProcessExit code])).

(** An exception nothing catches ends the process with exit code 1. *)
Definition uncaught (f : ListenFailure) : Process → Process :=
  alive (λ p, mkProcess (Exited 1) (connection p) (listening p) (db p)
                (trace p ++ [Uncaught f])).

(** Statements in sequence, first to last. *)
Definition seq (fs : list (Process → Process)) (p : Process) : Process :=
  foldl (λ q f, f q) p fs.

(** [connectToDatabase], up to its [await]: the connection attempt is
    started and the function suspends on the promise. *)
Definition connectToDatabase_call (env : Env) : Process → Process :=
  seq [ emit (MongooseConnect (MONGO_URI env));
        set_connection Connecting ].

(** [connectToDatabase], from its [await] on: the [try] continues when the
    promise is fulfilled, the [catch] runs when it is rejected. *)
Definition connectToDatabase_resume (connected : bool) : Process → Process :=
  if connected
  then emit (ConsoleLog "Database Connected!")
  else seq [ emit (ConsoleError "Database Connection Failed:");
             process_exit 1 ].

(** [process.env.PORT || 3000] *)
Definition port_of (env : Env) : string :=
  match PORT env with
  | Some p => if decide (p = "") then "3000" else p
  | None => "3000"
  end.

(** [app.listen(port, callback)]: the listener is bound by the call, or
    the call throws on a port that is not one; a port that cannot be bound
    shows only after the script. *)
Definition app_listen (result : ListenResult) (port : string)
  : Process → Process :=
  match result with
  | Bound => seq [ emit (AppListen port); set_listening port ]
  | Failed BadPort => seq [ emit (AppListen port); uncaught BadPort ]
  | Failed BindError => emit (AppListen port)
  end.

(** The callback given to [app.listen]. *)
Definition listen_callback (port : string) : Process → Process :=
  emit (ConsoleLog ("Listening on http://localhost:" +:+ port)).

(** Once the script has finished: the callback runs if the listener is
    bound; the [error] event of a server that could not bind has no
    listener and ends the process. *)
Definition after_script (env : Env) : Process → Process :=
  match LISTEN env with
  | Bound => listen_callback (port_of env)
  | Failed f => uncaught f
  end.

(** [app.js], top to bottom. The call to [connectToDatabase] is not
    awaited: the script goes on while the promise is pending. *)
Definition app_js (env : Env) : Process → Process :=
  let port := port_of env in
  seq [ emit DotenvConfig;
        connectToDatabase_call env;
        emit (AppSet "view engine" "pug");
        emit (AppUse Urlencoded);
        emit (AppUse (Static "public"));
        emit (AppUse (Router "/"));
        app_listen (LISTEN env) port ].

(** Start-up: the script runs to its end, or to the call that throws;
    then what is pending from [app.listen] happens. *)
Definition boot (env : Env) (s : Store) : Process :=
  seq [ app_js env; after_script env ] (initial s).

(** What reaches the process after start-up: the connection promise
    settles, or a request comes in; [store_up] says whether the round trip
    of that request reaches the store. *)
Inductive Input :=
| ConnectSettles (connected : bool)
| Incoming (req : Request) (store_up : bool).

Definition with_reachable (up : bool) (s : Store) : Store :=
  mkStore (docs s) up (calls s).

(** One request through [app.use('/', itemRoutes)]. A request no route
    matches is answered by the framework, not by a handler: it is recorded
    with no response of the application. An exception that leaves a handler
    would be an unhandled rejection, which ends the process. *)
Definition serve (req : Request) (up : bool) (p : Process) : Process :=
  match itemRoutes req with
  | None => emit (Responded req None) p
  | Some r =>
      let '(c, s, resp) := handle (handler_of r) req (with_reachable up (db p)) in
      match c with
      | Normal _ => seq [ set_db s; emit (Responded req (Some resp)) ] p
      | Throw _ => seq [ set_db s; process_exit 1 ] p
      end
  end.

Definition react (i : Input) : Process → Process :=
  alive (λ p,
    match i with
    | ConnectSettles ok =>
        match connection p with
        | Connecting =>
            seq [ emit (MongooseSettled ok);
                  set_connection (Settled ok);
                  connectToDatabase_resume ok ] p
        | _ => p
        end
    | Incoming req up =>
        match listening p with
        | Some _ => serve req up p
        | None => p
        end
    end).

Definition steps (inputs : list Input) (p : Process) : Process :=
  foldl (λ q i, react i q) p inputs.

(** A whole execution: start-up, then the inputs in the order they come. *)
Definition run (env : Env) (s : Store) (inputs : list Input) : Process :=
  steps inputs (boot env s).

Definition default_env : Env :=
  mkEnv (Some "mongodb://127.0.0.1:27017/mvc_example") (Some "3000") Bound.



(** The store of the scenario: two items, reachable. *)
Definition sample_store : Store :=
  mkStore (<[7%N := "Milk"]> (<[3%N := "Eggs"]> ∅)) true [].

Definition empty_store : Store := mkStore ∅ true [].

Definition unreachable (s : Store) : Store :=
  mkStore (docs s) false (calls s).

(** The three responses the handlers produce. *)
Definition redirect_home : Response := mkResponse 302 (Some (Redirected "/")).
Definition server_error (msg : string) : Response :=
  mkResponse 500 (Some (Text msg)).
Definition page (items : list Item) : Response :=
  mkResponse 200 (Some (Rendered "index" items)).

(** The items a response shows, when it is the rendered page. *)
Definition listed (r : Response) : option (list Item) :=
  match sent r with
  | Some (Rendered _ items) => Some items
  | _ => None
  end.

(** A run of Add requests, one per submitted name, first to last. *)
Definition add_each (names : list string) (s : Store) : Store :=
  foldl (λ st n, store_after addItem (add_request (Some n)) st) s names.

(** Every persisted item has a non-empty name. *)
Definition named (s : Store) : Prop :=
  map_Forall (λ _ n, n ≠ "") (docs s).

(** The number of persisted items. *)
Definition count (s : Store) : nat := size (docs s).

(** ** Reading a start-up trace *)

Definition is_attempt (e : Event) : bool :=
  match e with MongooseConnect _ => true | _ => false end.
Definition is_listen (e : Event) : bool :=
  match e with AppListen _ => true | _ => false end.
Definition is_completion (e : Event) : bool :=
  match e with MongooseSettled _ => true | _ => false end.

(** Neither the start of a connection attempt nor the start of listening. *)
Definition later_event (e : Event) : Prop :=
  is_attempt e = false ∧ is_listen e = false.

(** In [t], every [b]-event comes after some [a]-event. *)
Definition always_after (a b : Event → bool) (t : list Event) : Prop :=
  ∀ k e, t !! k = Some e → b e = true →
    ∃ j e', j < k ∧ t !! j = Some e' ∧ a e' = true.


(** How the connection attempt ends, as far as the inputs say. *)
Fixpoint first_settlement (inputs : list Input) : option bool :=
  match inputs with
  | [] => None
  | ConnectSettles ok :: _ => Some ok
  | Incoming _ _ :: rest => first_settlement rest
  end.


(** ** Reading a whole trace *)

Definition is_uncaught (e : Event) : bool :=
  match e with Uncaught _ => true | _ => false end.



(** Two Delete requests, one after the other. *)
Definition delete_both (r1 r2 : Request) (s : Store) : Store :=
  store_after deleteItem r2 (store_after deleteItem r1 s).

(** ** What each handler does, case by case *)

Lemma handle_getItems req s :
  handle getItems req s =
    (Normal tt, log_call CallFind s,
     if reachable s then page (ItemModel.documents (docs s))
     else server_error "Error fetching items").
Proof. destruct s as [d [] l]; reflexivity. Qed.

(** [addItem] in full: either a text is accepted and goes to the store,
    or nothing does and the answer says whether the guard was taken. *)
Lemma handle_addItem req s :
  handle addItem req s =
    match accepted_name req with
    | Some n =>
        let id := fresh (dom (docs s)) in
        let s1 := log_call (CallInsert (mkItem id n)) s in
        if reachable s
        then (Normal tt, set_docs (<[id := n]> (docs s)) s1, redirect_home)
        else (Normal tt, s1, server_error "Error saving item")
    | None =>
        (Normal tt, s,
         if turned_away req then redirect_home
         else server_error "Error saving item")
    end.
Proof.
  unfold handle, addItem, try_catch, accepted_name, turned_away.
  destruct (body req) as [|[v|]]; [by destruct s | | by destruct s].
  unfold destructure_name, mbind, Js_bind, mret, Js_ret.
  destruct (falsy (Some v)) eqn:Hf; [by destruct s|].
  unfold ItemModel.save, ItemModel.validate, mbind, Js_bind, get_store.
  destruct (ItemModel.cast_string v) as [n|]; [|by destruct s].
  destruct (decide (n = "")); [by destruct s|].
  destruct s as [d [] l]; reflexivity.
Qed.

Lemma accepted_name_nonempty req n : accepted_name req = Some n → n ≠ "".
Proof.
  unfold accepted_name. destruct (body req) as [|[v|]]; try done.
  destruct (falsy (Some v)); [done|].
  destruct (ItemModel.cast_string v) as [m|]; [|done].
  destruct (decide (m = "")); [done|]. by intros [= <-].
Qed.

Lemma addItem_cases req :
  accepted_name req = None ∨ ∃ n, accepted_name req = Some n ∧ n ≠ "".
Proof.
  destruct (accepted_name req) as [n|] eqn:Hacc; [right | by left].
  exists n. split; [done|]. by apply (accepted_name_nonempty req).
Qed.

(** Non-empty text is accepted as it is. *)
Lemma accepted_text req n :
  body req = Parsed (Some (FText n)) → n ≠ "" → accepted_name req = Some n.
Proof.
  intros Hb Hne. unfold accepted_name. rewrite Hb. simpl.
  rewrite bool_decide_eq_false_2 by done.
  by destruct (decide (n = "")).
Qed.

Lemma falsy_not_accepted req :
  falsy (submitted_name req) = true → accepted_name req = None.
Proof.
  unfold submitted_name, accepted_name.
  destruct (body req) as [|name]; [done|]. by intros ->.
Qed.

Lemma handle_addItem_rejected req s :
  accepted_name req = None →
  handle addItem req s =
    (Normal tt, s,
     if turned_away req then redirect_home
     else server_error "Error saving item").
Proof. intros Hrej. by rewrite handle_addItem, Hrej. Qed.

Lemma handle_addItem_accepted req s n :
  accepted_name req = Some n → n ≠ "" →
  handle addItem req s =
    let id := fresh (dom (docs s)) in
    let s1 := log_call (CallInsert (mkItem id n)) s in
    if reachable s
    then (Normal tt, set_docs (<[id := n]> (docs s)) s1, redirect_home)
    else (Normal tt, s1, server_error "Error saving item").
Proof. intros Hacc _. by rewrite handle_addItem, Hacc. Qed.

Lemma handle_addItem_truthy req s n :
  body req = Parsed (Some (FText n)) → n ≠ "" →
  handle addItem req s =
    let id := fresh (dom (docs s)) in
    let s1 := log_call (CallInsert (mkItem id n)) s in
    if reachable s
    then (Normal tt, set_docs (<[id := n]> (docs s)) s1, redirect_home)
    else (Normal tt, s1, server_error "Error saving item").
Proof.
  intros Hb Hne. apply handle_addItem_accepted; [|done].
  by apply accepted_text.
Qed.

Lemma handle_deleteItem_valid req s i :
  params_id req = ValidId i →
  handle deleteItem req s =
    let s1 := log_call (CallFindByIdAndDelete i) s in
    if reachable s
    then (Normal tt, set_docs (delete i (docs s)) s1, redirect_home)
    else (Normal tt, s1, server_error "Error deleting item").
Proof.
  intros Hi. unfold handle, deleteItem, try_catch. rewrite Hi.
  destruct s as [d [] l]; reflexivity.
Qed.

Lemma handle_deleteItem_malformed req s raw :
  params_id req = MalformedId raw →
  handle deleteItem req s = (Normal tt, s, server_error "Error deleting item").
Proof.
  intros Hi. unfold handle, deleteItem, try_catch. rewrite Hi.
  destruct s; reflexivity.
Qed.

(** ** The documents after each handler *)

Lemma fresh_id_unused (m : Collection) : m !! fresh (dom m) = None.
Proof. apply not_elem_of_dom, is_fresh. Qed.

Lemma docs_after_getItems req s : docs (store_after getItems req s) = docs s.
Proof. unfold store_after. by rewrite handle_getItems. Qed.

Lemma docs_after_addItem_rejected req s :
  accepted_name req = None → store_after addItem req s = s.
Proof.
  intros Hrej. unfold store_after. by rewrite handle_addItem_rejected.
Qed.

Lemma docs_after_addItem_accepted req s n :
  accepted_name req = Some n → n ≠ "" →
  docs (store_after addItem req s) =
    if reachable s then <[fresh (dom (docs s)) := n]> (docs s) else docs s.
Proof.
  intros Hn Hne. unfold store_after.
  rewrite (handle_addItem_accepted _ _ n) by done. simpl.
  by destruct (reachable s).
Qed.

Lemma docs_after_addItem_truthy req s n :
  body req = Parsed (Some (FText n)) → n ≠ "" →
  docs (store_after addItem req s) =
    if reachable s then <[fresh (dom (docs s)) := n]> (docs s) else docs s.
Proof.
  intros Hb Hne. apply docs_after_addItem_accepted; [|done].
  by apply accepted_text.
Qed.

Lemma docs_after_deleteItem req s :
  docs (store_after deleteItem req s) =
    match params_id req with
    | ValidId i => if reachable s then delete i (docs s) else docs s
    | MalformedId _ => docs s
    end.
Proof.
  unfold store_after. destruct (params_id req) as [i|raw] eqn:Hid.
  - rewrite (handle_deleteItem_valid _ _ i) by done. simpl.
    by destruct (reachable s).
  - by rewrite (handle_deleteItem_malformed _ _ raw).
Qed.

Lemma reachable_after op req s :
  reachable (store_after (handler_of op) req s) = reachable s.
Proof.
  unfold store_after. destruct op; simpl.
  - by rewrite handle_getItems.
  - destruct (addItem_cases req) as [Hrej | (n & Hn & Hne)].
    + by rewrite handle_addItem_rejected.
    + rewrite (handle_addItem_accepted _ _ n) by done.
      by destruct s as [d [] l].
  - destruct (params_id req) as [i|raw] eqn:Hid.
    + rewrite (handle_deleteItem_valid _ _ i) by done.
      by destruct s as [d [] l].
    + by rewrite (handle_deleteItem_malformed _ _ raw).
Qed.

(** No exception leaves a handler. *)
Lemma handlers_complete op req s :
  completion_of (handler_of op) req s = Normal tt.
Proof.
  unfold completion_of. destruct op; simpl.
  - by rewrite handle_getItems.
  - destruct (addItem_cases req) as [Hrej | (n & Hn & Hne)].
    + by rewrite handle_addItem_rejected.
    + rewrite (handle_addItem_accepted _ _ n) by done. simpl.
      by destruct (reachable s).
  - destruct (params_id req) as [i|raw] eqn:Hid.
    + rewrite (handle_deleteItem_valid _ _ i) by done. simpl.
      by destruct (reachable s).
    + by rewrite (handle_deleteItem_malformed _ _ raw).
Qed.

Lemma documents_insert (m : Collection) i n :
  m !! i = None →
  ItemModel.documents (<[i := n]> m) ≡ₚ ItemModel.documents m ++ [mkItem i n].
Proof.
  intros Hi. unfold ItemModel.documents.
  rewrite map_to_list_insert by done. rewrite fmap_cons. simpl.
  by rewrite Permutation_cons_append.
Qed.

Lemma add_each_cons n names s :
  add_each (n :: names) s =
    add_each names (store_after addItem (add_request (Some n)) s).
Proof. reflexivity. Qed.

Lemma add_each_documents names : ∀ s,
  reachable s = true →
  Forall (λ n, n ≠ "") names →
  reachable (add_each names s) = true ∧
  ∃ added, name <$> added = names ∧
    ItemModel.documents (docs (add_each names s))
      ≡ₚ ItemModel.documents (docs s) ++ added.
Proof.
  induction names as [|n names IH]; intros s Hup Hnames.
  - split; [done|]. exists []. by rewrite app_nil_r.
  - apply Forall_cons in Hnames as [Hn Hnames].
    rewrite add_each_cons.
    set (s1 := store_after addItem (add_request (Some n)) s).
    assert (reachable s1 = true) as Hup1.
    { unfold s1. by rewrite (reachable_after OpAdd). }
    destruct (IH s1 Hup1 Hnames) as (Hup' & added & Hadded & Hperm).
    split; [done|].
    exists (mkItem (fresh (dom (docs s))) n :: added). split.
    + by rewrite fmap_cons, Hadded.
    + rewrite Hperm. unfold s1.
      rewrite (docs_after_addItem_truthy _ _ n) by done. rewrite Hup.
      rewrite documents_insert by apply fresh_id_unused.
      by rewrite <- app_assoc.
Qed.

(** ** The claims about the three operations *)

(** C1. After any run of Add requests with non-empty names on a store the
    round trips reach, List renders the items the store held before
    together with one new item per submitted name, in some order; and one
    such Add puts exactly one record, under an identifier not in use,
    into the store. *)
Theorem add_then_list_shows_all names s :
  reachable s = true →
  Forall (λ n, n ≠ "") names →
  (∃ items added,
     listed (response_of getItems list_request (add_each names s)) = Some items
     ∧ statusCode (response_of getItems list_request (add_each names s)) = 200%N
     ∧ name <$> added = names
     ∧ items ≡ₚ ItemModel.documents (docs s) ++ added)
  ∧ (∀ n, n ≠ "" →
       ∃ i, docs s !! i = None
         ∧ docs (store_after addItem (add_request (Some n)) s)
             = <[i := n]> (docs s)
         ∧ count (store_after addItem (add_request (Some n)) s)
             = S (count s)).
Proof.
  intros Hup Hnames. split.
  - destruct (add_each_documents names s Hup Hnames)
      as (Hup' & added & Hadded & Hperm).
    exists (ItemModel.documents (docs (add_each names s))), added.
    unfold response_of. rewrite handle_getItems, Hup'. done.
  - intros n Hn. exists (fresh (dom (docs s))).
    pose proof (fresh_id_unused (docs s)) as Hfresh.
    unfold count.
    rewrite (docs_after_addItem_truthy _ _ n) by done. rewrite Hup.
    split_and!; [done | done |]. by apply map_size_insert_None.
Qed.

Lemma named_sample_store : named sample_store.
Proof.
  unfold named, sample_store. simpl.
  apply map_Forall_insert_2; [done|].
  apply map_Forall_insert_2; [done|]. apply map_Forall_empty.
Qed.

Lemma add_then_list_shows_all_witness :
  ∃ items added,
    listed (response_of getItems list_request
              (add_each ["Tea"; "Tea"; "Rice"] sample_store)) = Some items
    ∧ name <$> added = ["Tea"; "Tea"; "Rice"]
    ∧ items ≡ₚ ItemModel.documents (docs sample_store) ++ added.
Proof.
  assert (Forall (λ n : string, n ≠ "") ["Tea"; "Tea"; "Rice"]) as Hnames.
  { repeat (apply Forall_cons_2; [done|]). apply Forall_nil_2. }
  destruct (add_then_list_shows_all _ sample_store eq_refl Hnames)
    as [(items & added & H1 & _ & H2 & H3) _].
  by exists items, added.
Defined.

(** C2. Every persisted item has a non-empty name: this holds of the empty
    store and every handler keeps it, whatever the request and whether or
    not the store is reachable; when the submitted name is absent or empty
    [addItem] does not even issue a round trip. *)
Theorem named_is_invariant :
  (∀ up log, named (mkStore ∅ up log))
  ∧ (∀ op req s, named s → named (store_after (handler_of op) req s))
  ∧ (∀ req s, falsy (submitted_name req) = true →
       calls (store_after addItem req s) = calls s).
Proof.
  split_and!.
  - intros up log. apply map_Forall_empty.
  - intros op req s Hs. unfold named in *. destruct op; simpl.
    + by rewrite docs_after_getItems.
    + destruct (addItem_cases req) as [Hrej | (n & Hn & Hne)].
      * by rewrite docs_after_addItem_rejected.
      * rewrite (docs_after_addItem_accepted _ _ n) by done.
        destruct (reachable s); [|done].
        by apply map_Forall_insert_2.
    + rewrite docs_after_deleteItem.
      destruct (params_id req) as [i|raw]; [|done].
      destruct (reachable s); [|done].
      by apply map_Forall_delete.
  - intros req s Hf.
    rewrite docs_after_addItem_rejected; [done|].
    by apply falsy_not_accepted.
Qed.

Lemma named_is_invariant_witness :
  named sample_store
  ∧ named (store_after addItem (add_request (Some "Tea")) sample_store)
  ∧ named (store_after addItem (add_request (Some "")) sample_store)
  ∧ named (store_after deleteItem (delete_request (ValidId 3)) sample_store).
Proof.
  destruct named_is_invariant as (_ & Hkeep & _).
  split_and!.
  - exact named_sample_store.
  - exact (Hkeep OpAdd _ _ named_sample_store).
  - exact (Hkeep OpAdd _ _ named_sample_store).
  - exact (Hkeep OpDelete _ _ named_sample_store).
Defined.




(** C4. Delete twice with the same identifier leaves the same items as
    Delete once; and Delete of an identifier the store does not hold
    leaves the items, and their number, as they were and, when the round
    trip reaches the store, answers with a redirect to [/]. *)
Theorem delete_is_idempotent req s :
  docs (store_after deleteItem req (store_after deleteItem req s))
    = docs (store_after deleteItem req s)
  ∧ (∀ i, params_id req = ValidId i → docs s !! i = None →
       docs (store_after deleteItem req s) = docs s
       ∧ count (store_after deleteItem req s) = count s
       ∧ (reachable s = true →
            response_of deleteItem req s
              = mkResponse 302 (Some (Redirected "/")))).
Proof.
  split.
  - rewrite (docs_after_deleteItem req (store_after deleteItem req s)).
    rewrite (reachable_after OpDelete).
    rewrite docs_after_deleteItem.
    destruct (params_id req) as [i|raw]; [|done].
    destruct (reachable s); [|done].
    apply delete_delete_eq.
  - intros i Hid Hnone.
    assert (docs (store_after deleteItem req s) = docs s) as Hdocs.
    { rewrite docs_after_deleteItem, Hid.
      destruct (reachable s); [|done]. by apply delete_id. }
    split_and!; [done | unfold count; by rewrite Hdocs |].
    intros Hup. unfold response_of.
    rewrite (handle_deleteItem_valid _ _ i) by done. by rewrite Hup.
Qed.

Lemma delete_is_idempotent_witness :
  docs (store_after deleteItem (delete_request (ValidId 9)) sample_store)
    = docs sample_store
  ∧ response_of deleteItem (delete_request (ValidId 9)) sample_store
    = mkResponse 302 (Some (Redirected "/")).
Proof.
  destruct (delete_is_idempotent (delete_request (ValidId 9)) sample_store)
    as [_ Habsent].
  destruct (Habsent 9%N eq_refl eq_refl) as (Hdocs & _ & Hresp).
  split; [exact Hdocs | exact (Hresp eq_refl)].
Defined.

(** C5. When the store holds an item with the given identifier and the
    round trip reaches the store, Delete removes that item and no other:
    the identifier is no longer held, the number of items goes down by
    one, and every other identifier keeps its item. *)
Theorem delete_removes_exactly_one req s i n :
  reachable s = true →
  params_id req = ValidId i →
  docs s !! i = Some n →
  docs (store_after deleteItem req s) !! i = None
  ∧ S (count (store_after deleteItem req s)) = count s
  ∧ (∀ j, j ≠ i → docs (store_after deleteItem req s) !! j = docs s !! j).
Proof.
  intros Hup Hid Hi. unfold count.
  rewrite docs_after_deleteItem, Hid, Hup. split_and!.
  - apply lookup_delete_eq.
  - rewrite map_size_delete, Hi. simpl.
    assert (size (docs s) ≠ 0) as Hne.
    { intros H0. apply map_size_empty_inv in H0.
      rewrite H0, lookup_empty in Hi. discriminate. }
    lia.
  - intros j Hj. by apply lookup_delete_ne.
Qed.

Lemma delete_removes_exactly_one_witness :
  docs (store_after deleteItem (delete_request (ValidId 3)) sample_store)
    !! 3%N = None
  ∧ S (count (store_after deleteItem (delete_request (ValidId 3))
                sample_store)) = count sample_store.
Proof.
  destruct (delete_removes_exactly_one
              (delete_request (ValidId 3)) sample_store 3 "Eggs"
              eq_refl eq_refl eq_refl) as (Hgone & Hcount & _).
  split; [exact Hgone | exact Hcount].
Defined.

(** Each handler issues at most one round trip. *)
Lemma calls_after op req s :
  ∃ issued, calls (store_after (handler_of op) req s) = calls s ++ issued
            ∧ length issued ≤ 1.
Proof.
  unfold store_after. destruct op; simpl.
  - rewrite handle_getItems. by exists [CallFind].
  - destruct (addItem_cases req) as [Hrej | (n & Hn & Hne)].
    + rewrite handle_addItem_rejected by done. exists []. simpl.
      split; [by rewrite app_nil_r | lia].
    + rewrite (handle_addItem_accepted _ _ n) by done.
      exists [CallInsert (mkItem (fresh (dom (docs s))) n)].
      by destruct s as [d [] l].
  - destruct (params_id req) as [i|raw] eqn:Hid.
    + rewrite (handle_deleteItem_valid _ _ i) by done.
      exists [CallFindByIdAndDelete i]. by destruct s as [d [] l].
    + rewrite (handle_deleteItem_malformed _ _ raw) by done.
      exists []. simpl. split; [by rewrite app_nil_r | lia].
Qed.

Lemma docs_after_unreachable op req s :
  reachable s = false → docs (store_after (handler_of op) req s) = docs s.
Proof.
  intros Hdown. destruct op; simpl.
  - apply docs_after_getItems.
  - destruct (addItem_cases req) as [Hrej | (n & Hn & Hne)].
    + by rewrite docs_after_addItem_rejected.
    + by rewrite (docs_after_addItem_accepted _ _ n), Hdown.
  - rewrite docs_after_deleteItem, Hdown. by destruct (params_id req).
Qed.

(** ** A request never ends the process *)

Lemma serve_keeps_running req up p :
  status p = Running →
  status (serve req up p) = Running
  ∧ connection (serve req up p) = connection p
  ∧ listening (serve req up p) = listening p
  ∧ ∃ r, trace (serve req up p) = trace p ++ [Responded req r].
Proof.
  intros Hrun. unfold serve.
  destruct (itemRoutes req) as [op|].
  - pose proof (handlers_complete op req (with_reachable up (db p))) as Hc.
    unfold completion_of in Hc.
    destruct (handle (handler_of op) req (with_reachable up (db p)))
      as [[c s'] resp].
    simpl in Hc. subst c.
    unfold seq, set_db, emit, alive. simpl. rewrite Hrun. simpl.
    split_and!; try done. by eexists.
  - unfold emit, alive. rewrite Hrun. simpl.
    split_and!; try done. by eexists.
Qed.

(** C6. With the store unreachable, List answers 500 "Error fetching
    items", an Add that submits a name answers 500 "Error saving item" and
    Delete answers 500 "Error deleting item"; no exception leaves the
    handler, the items are untouched, at most one round trip is issued,
    and a process serving such a request stays up. *)
Theorem store_failure_answers_500 req s :
  reachable s = false →
  response_of getItems req s
    = mkResponse 500 (Some (Text "Error fetching items"))
  ∧ (∀ n, body req = Parsed (Some (FText n)) → n ≠ "" →
       response_of addItem req s
         = mkResponse 500 (Some (Text "Error saving item")))
  ∧ response_of deleteItem req s
    = mkResponse 500 (Some (Text "Error deleting item"))
  ∧ (∀ op,
       completion_of (handler_of op) req s = Normal tt
       ∧ docs (store_after (handler_of op) req s) = docs s
       ∧ length (calls (store_after (handler_of op) req s))
           ≤ S (length (calls s)))
  ∧ (∀ p, status p = Running →
       status (react (Incoming req false) p) = Running).
Proof.
  intros Hdown. unfold response_of. split_and!.
  - by rewrite handle_getItems, Hdown.
  - intros n Hn Hne.
    by rewrite (handle_addItem_truthy _ _ n), Hdown.
  - destruct (params_id req) as [i|raw] eqn:Hid.
    + by rewrite (handle_deleteItem_valid _ _ i), Hdown.
    + by rewrite (handle_deleteItem_malformed _ _ raw).
  - intros op. split_and!.
    + apply handlers_complete.
    + by apply docs_after_unreachable.
    + destruct (calls_after op req s) as (issued & -> & Hlen).
      rewrite length_app. lia.
  - intros p Hrun. unfold react, alive. rewrite Hrun.
    destruct (listening p); [|done].
    by apply serve_keeps_running.
Qed.

Lemma store_failure_answers_500_witness :
  response_of getItems list_request (unreachable sample_store)
    = mkResponse 500 (Some (Text "Error fetching items"))
  ∧ response_of addItem (add_request (Some "Tea")) (unreachable sample_store)
    = mkResponse 500 (Some (Text "Error saving item"))
  ∧ response_of deleteItem (delete_request (ValidId 3))
      (unreachable sample_store)
    = mkResponse 500 (Some (Text "Error deleting item")).
Proof.
  split_and!.
  - apply (store_failure_answers_500 list_request (unreachable sample_store)).
    reflexivity.
  - destruct (store_failure_answers_500 (add_request (Some "Tea"))
                (unreachable sample_store) eq_refl) as (_ & Hadd & _).
    apply (Hadd "Tea"); [reflexivity | discriminate].
  - apply (store_failure_answers_500 (delete_request (ValidId 3))
             (unreachable sample_store)).
    reflexivity.
Defined.

(** C9. List leaves the persisted items exactly as they were, both when
    it renders the page and when it answers 500. *)
Theorem list_is_read_only req s :
  docs (store_after getItems req s) = docs s
  ∧ response_of getItems req s =
      (if reachable s
       then mkResponse 200 (Some (Rendered "index"
                                    (ItemModel.documents (docs s))))
       else mkResponse 500 (Some (Text "Error fetching items"))).
Proof.
  split.
  - apply docs_after_getItems.
  - unfold response_of. by rewrite handle_getItems.
Qed.

(** C10. A Delete whose round trip reaches the store answers with the same
    response, the redirect to [/], whether or not the store held the
    identifier. *)
Theorem delete_response_hides_presence req s1 s2 i n :
  params_id req = ValidId i →
  reachable s1 = true → reachable s2 = true →
  docs s1 !! i = Some n → docs s2 !! i = None →
  response_of deleteItem req s1 = response_of deleteItem req s2
  ∧ response_of deleteItem req s1 = mkResponse 302 (Some (Redirected "/")).
Proof.
  intros Hid Hup1 Hup2 _ _. unfold response_of.
  rewrite !(handle_deleteItem_valid _ _ i) by done.
  by rewrite Hup1, Hup2.
Qed.

Lemma delete_response_hides_presence_witness :
  response_of deleteItem (delete_request (ValidId 3)) sample_store
    = response_of deleteItem (delete_request (ValidId 3)) empty_store.
Proof.
  apply (delete_response_hides_presence
           (delete_request (ValidId 3)) sample_store empty_store 3 "Eggs");
    reflexivity.
Defined.

(** ** Start-up and what follows it *)

Lemma boot_unfold env s :
  LISTEN env = Bound →
  boot env s =
    mkProcess Running Connecting (Some (port_of env)) s
      [ DotenvConfig;
        MongooseConnect (MONGO_URI env);
        AppSet "view engine" "pug";
        AppUse Urlencoded;
        AppUse (Static "public");
        AppUse (Router "/");
        AppListen (port_of env);
        ConsoleLog ("Listening on http://localhost:" +:+ port_of env) ].
Proof.
  intros Hl. unfold boot, app_js, after_script. by rewrite Hl.
Qed.

(** When [app.listen] fails the process is over before anything comes
    in. *)
Lemma boot_failed env s f :
  LISTEN env = Failed f →
  boot env s =
    mkProcess (Exited 1) Connecting None s
      [ DotenvConfig;
        MongooseConnect (MONGO_URI env);
        AppSet "view engine" "pug";
        AppUse Urlencoded;
        AppUse (Static "public");
        AppUse (Router "/");
        AppListen (port_of env);
        Uncaught f ].
Proof.
  intros Hl. unfold boot, app_js, after_script. rewrite Hl.
  by destruct f.
Qed.

Lemma react_settles_false p :
  status p = Running → connection p = Connecting →
  react (ConnectSettles false) p =
    mkProcess (Exited 1) (Settled false) (listening p) (db p)
      (trace p ++ [ MongooseSettled false;
                    ConsoleError "Database Connection Failed:";
                    ProcessExit 1 ]).
Proof.
  destruct p as [st c li d t]. simpl. intros -> ->.
  unfold react, alive, seq, connectToDatabase_resume, process_exit, emit,
    set_connection, alive. simpl. by rewrite <- !app_assoc.
Qed.

Lemma react_settles_true p :
  status p = Running → connection p = Connecting →
  react (ConnectSettles true) p =
    mkProcess Running (Settled true) (listening p) (db p)
      (trace p ++ [ MongooseSettled true;
                    ConsoleLog "Database Connected!" ]).
Proof.
  destruct p as [st c li d t]. simpl. intros -> ->.
  unfold react, alive, seq, connectToDatabase_resume, emit,
    set_connection, alive. simpl. by rewrite <- !app_assoc.
Qed.

Lemma react_incoming req up p :
  status p = Running →
  status (react (Incoming req up) p) = Running
  ∧ connection (react (Incoming req up) p) = connection p
  ∧ listening (react (Incoming req up) p) = listening p
  ∧ ∃ l, trace (react (Incoming req up) p) = trace p ++ l
         ∧ Forall (λ e, ∃ r, e = Responded req r) l.
Proof.
  intros Hrun. unfold react, alive. rewrite Hrun.
  destruct (listening p) as [port|] eqn:Hl.
  - destruct (serve_keeps_running req up p Hrun) as (H1 & H2 & H3 & r & H4).
    rewrite Hl in H3. split_and!; try done.
    exists [Responded req r]. split; [done|].
    apply Forall_singleton. by exists r.
  - split_and!; try done. exists []. by rewrite app_nil_r.
Qed.

Lemma react_exited i p code : status p = Exited code → react i p = p.
Proof. intros Hst. unfold react, alive. by rewrite Hst. Qed.

Lemma steps_exited inputs p code :
  status p = Exited code → steps inputs p = p.
Proof.
  induction inputs as [|i inputs IH]; intros Hst; [done|].
  unfold steps in *. simpl. rewrite (react_exited _ _ code) by done. auto.
Qed.

Lemma steps_app pre post p : steps (pre ++ post) p = steps post (steps pre p).
Proof. apply foldl_app. Qed.

Lemma react_trace i p :
  ∃ l, trace (react i p) = trace p ++ l ∧ Forall later_event l.
Proof.
  destruct (status p) as [|code] eqn:Hst.
  - destruct i as [ok|req up].
    + destruct (connection p) eqn:Hc.
      * exists []. unfold react, alive. rewrite Hst, Hc.
        by rewrite app_nil_r.
      * destruct ok.
        -- rewrite react_settles_true by done. simpl. eexists. split; [done|].
           by repeat constructor.
        -- rewrite react_settles_false by done. simpl. eexists.
           split; [done|]. by repeat constructor.
      * exists []. unfold react, alive. rewrite Hst, Hc.
        by rewrite app_nil_r.
    + destruct (react_incoming req up p Hst) as (_ & _ & _ & l & Hl & Hall).
      exists l. split; [done|].
      eapply Forall_impl; [exact Hall|]. by intros e [r ->].
  - exists []. rewrite (react_exited _ _ code) by done. by rewrite app_nil_r.
Qed.

Lemma steps_trace inputs : ∀ p,
  ∃ l, trace (steps inputs p) = trace p ++ l ∧ Forall later_event l.
Proof.
  induction inputs as [|i inputs IH]; intros p.
  - exists []. by rewrite app_nil_r.
  - destruct (react_trace i p) as (l1 & Hl1 & Hall1).
    destruct (IH (react i p)) as (l2 & Hl2 & Hall2).
    exists (l1 ++ l2). split.
    + change (steps (i :: inputs) p) with (steps inputs (react i p)).
      by rewrite Hl2, Hl1, app_assoc.
    + by apply Forall_app.
Qed.

(** While no settlement has come in, the process is up, listening, and
    still waiting for the connection. *)
Lemma steps_pending pre : ∀ p,
  first_settlement pre = None →
  status p = Running → connection p = Connecting →
  status (steps pre p) = Running
  ∧ connection (steps pre p) = Connecting
  ∧ listening (steps pre p) = listening p.
Proof.
  induction pre as [|i pre IH]; intros p Hnone Hst Hc; [done|].
  destruct i as [ok|req up]; [done|]. simpl in Hnone.
  destruct (react_incoming req up p Hst) as (Hst' & Hc' & Hl' & _).
  change (steps (Incoming req up :: pre) p)
    with (steps pre (react (Incoming req up) p)).
  rewrite <- Hl'. apply IH; [done | done | congruence].
Qed.





Lemma run_trace env s inputs :
  ∃ l, trace (run env s inputs) = trace (boot env s) ++ l
       ∧ Forall later_event l.
Proof. apply steps_trace. Qed.

(** ** The claims about start-up *)

(** C7, as stated, fails: with the default environment and a connection
    that succeeds, the listener is started at a point of the trace that no
    completion of the connection attempt precedes. *)
Lemma listening_after_connection_counterexample :
  ¬ always_after is_completion is_listen
      (trace (run default_env empty_store [ConnectSettles true])).
Proof.
  intros Hclaim.
  destruct (Hclaim 6 (AppListen "3000") eq_refl eq_refl)
    as (j & e & Hlt & Hj & He).
  do 6 (destruct j as [|j]; [injection Hj as <-; discriminate He|]).
  lia.
Qed.

(** C7, amended. In every execution the connection attempt is started
    before [app.listen] is called, [app.listen] is called in every
    execution, and the attempt completes, with success or with failure,
    only after that call: the call that connects is not awaited. *)
Theorem listening_does_not_wait_for_connection env s inputs :
  always_after is_attempt is_listen (trace (run env s inputs))
  ∧ (∃ k, trace (run env s inputs) !! k = Some (AppListen (port_of env)))
  ∧ always_after is_listen is_completion (trace (run env s inputs)).
Proof.
  destruct (run_trace env s inputs) as (l & -> & Hl).
  destruct (LISTEN env) as [|f] eqn:Hlisten.
  - rewrite boot_unfold by done. simpl trace.
    split_and!.
    + intros k e Hk He. exists 1, (MongooseConnect (MONGO_URI env)).
      split_and!; [|done|done].
      apply lookup_app_Some in Hk as [Hk | [_ Hk]].
      * do 6 (destruct k as [|k]; [injection Hk as <-; discriminate He|]).
        lia.
      * rewrite Forall_lookup in Hl. destruct (Hl _ _ Hk) as [_ Hnl].
        congruence.
    + by exists 6.
    + intros k e Hk He. exists 6, (AppListen (port_of env)).
      split_and!; [|done|done].
      apply lookup_app_Some in Hk as [Hk | [Hlen _]].
      * do 8 (destruct k as [|k]; [injection Hk as <-; discriminate He|]).
        done.
      * simpl in Hlen. lia.
  - rewrite (boot_failed _ _ f) by done. simpl trace.
    split_and!.
    + intros k e Hk He. exists 1, (MongooseConnect (MONGO_URI env)).
      split_and!; [|done|done].
      apply lookup_app_Some in Hk as [Hk | [_ Hk]].
      * do 6 (destruct k as [|k]; [injection Hk as <-; discriminate He|]).
        lia.
      * rewrite Forall_lookup in Hl. destruct (Hl _ _ Hk) as [_ Hnl].
        congruence.
    + by exists 6.
    + intros k e Hk He. exists 6, (AppListen (port_of env)).
      split_and!; [|done|done].
      apply lookup_app_Some in Hk as [Hk | [Hlen _]].
      * do 8 (destruct k as [|k]; [injection Hk as <-; discriminate He|]).
        done.
      * simpl in Hlen. lia.
Qed.

(** ** The scenario of the lab manual *)

(** Start with an empty store; add "Milk"; the page lists it; an Add with
    an empty name changes nothing; deleting Milk's identifier empties the
    page. *)
Example scenario_milk :
  let s1 := store_after addItem (add_request (Some "Milk")) empty_store in
  let s2 := store_after addItem (add_request (Some "")) s1 in
  let s3 := store_after deleteItem (delete_request (ValidId 0)) s2 in
  listed (response_of getItems list_request s1) = Some [mkItem 0 "Milk"]
  ∧ listed (response_of getItems list_request s2) = Some [mkItem 0 "Milk"]
  ∧ listed (response_of getItems list_request s3) = Some [].
Proof. by vm_compute. Qed.

(** The router matches the path, not the text of the target: case, a
    trailing slash and the query string make no difference, and a [GET]
    route answers [HEAD]. *)
Example routes_as_matched :
  itemRoutes (mkRequest POST "/ADD" NoBody no_id) = Some OpAdd
  ∧ itemRoutes (mkRequest POST "/add/" NoBody no_id) = Some OpAdd
  ∧ itemRoutes (mkRequest POST "/add?next=1" NoBody no_id) = Some OpAdd
  ∧ itemRoutes (mkRequest GET "/?x=1" NoBody no_id) = Some OpList
  ∧ itemRoutes (mkRequest HEAD "/" NoBody no_id) = Some OpList
  ∧ itemRoutes (mkRequest GET "/add" NoBody no_id) = None
  ∧ itemRoutes (mkRequest POST "/" NoBody no_id) = None
  ∧ itemRoutes (mkRequest POST "/add/more" NoBody no_id) = None
  ∧ itemRoutes (mkRequest POST "/delete" NoBody no_id) = None.
Proof. by vm_compute. Qed.

(** What the schema makes of a submitted name. *)
Example names_as_cast :
  ItemModel.cast_string (FText "Milk") = Some "Milk"
  ∧ ItemModel.cast_string (FArray [FText "a"; FText "b"]) = None
  ∧ ItemModel.cast_string (FObject [("x", FText "y")]) = None
  ∧ ItemModel.cast_string (FObject [("_id", FText "Milk")]) = Some "Milk"
  ∧ ItemModel.cast_string (FObject [("_id", FText "")]) = None.
Proof. by vm_compute. Qed.

(** The router binds List and Add only. *)
Example routes_bound :
  itemRoutes list_request = Some OpList
  ∧ itemRoutes (add_request (Some "Milk")) = Some OpAdd
  ∧ ∀ req, itemRoutes req ≠ Some OpDelete.
Proof.
  split_and!; [done | done |].
  intros req. unfold itemRoutes.
  destruct (method req); repeat case_match; done.
Qed.

(** ** One request, through the router *)

Lemma itemRoutes_not_delete req : itemRoutes req ≠ Some OpDelete.
Proof.
  unfold itemRoutes. destruct (method req); repeat case_match; done.
Qed.

Lemma react_incoming_unfold req up p port :
  status p = Running → listening p = Some port →
  react (Incoming req up) p =
    match itemRoutes req with
    | Some op =>
        let s := with_reachable up (db p) in
        mkProcess Running (connection p) (listening p)
          (store_after (handler_of op) req s)
          (trace p ++ [Responded req
                         (Some (response_of (handler_of op) req s))])
    | None =>
        mkProcess Running (connection p) (listening p) (db p)
          (trace p ++ [Responded req None])
    end.
Proof.
  destruct p as [st c li d t]. simpl. intros -> ->.
  unfold react, alive, serve. simpl.
  destruct (itemRoutes req) as [op|]; [|done].
  pose proof (handlers_complete op req (with_reachable up d)) as Hc.
  unfold completion_of in Hc. unfold store_after, response_of.
  destruct (handle (handler_of op) req (with_reachable up d))
    as [[c' s'] resp].
  simpl in Hc. by subst c'.
Qed.

Lemma react_settles_db ok p : db (react (ConnectSettles ok) p) = db p.
Proof.
  destruct (status p) as [|code] eqn:Hst.
  - destruct (connection p) eqn:Hc.
    + unfold react, alive. by rewrite Hst, Hc.
    + destruct ok.
      * by rewrite react_settles_true.
      * by rewrite react_settles_false.
    + unfold react, alive. by rewrite Hst, Hc.
  - by rewrite (react_exited _ _ code).
Qed.

(** What every routed handler keeps, the process keeps. *)
Section StoreInvariant.

Variable P : Store → Prop.
Hypothesis P_reachable : ∀ up s, P s → P (with_reachable up s).
Hypothesis P_list : ∀ req s, P s → P (store_after getItems req s).
Hypothesis P_add : ∀ req s, P s → P (store_after addItem req s).

Lemma react_invariant i p : P (db p) → P (db (react i p)).
Proof.
  intros HP. destruct i as [ok|req up].
  - by rewrite react_settles_db.
  - destruct (status p) as [|code] eqn:Hst;
      [|by rewrite (react_exited _ _ code)].
    destruct (listening p) as [port|] eqn:Hl.
    + rewrite (react_incoming_unfold _ _ _ port) by done.
      pose proof (itemRoutes_not_delete req) as Hnd.
      destruct (itemRoutes req) as [[]|]; simpl; try done.
      * by apply P_list, P_reachable.
      * by apply P_add, P_reachable.
    + unfold react, alive. by rewrite Hst, Hl.
Qed.

Lemma steps_invariant inputs : ∀ p, P (db p) → P (db (steps inputs p)).
Proof.
  induction inputs as [|i inputs IH]; intros p HP; [done|].
  change (steps (i :: inputs) p) with (steps inputs (react i p)).
  by apply IH, react_invariant.
Qed.

End StoreInvariant.

(** ** The shape of every trace *)



Lemma run_failed env s inputs f :
  LISTEN env = Failed f → run env s inputs = boot env s.
Proof.
  intros Hl. unfold run. apply (steps_exited _ _ 1).
  by rewrite (boot_failed _ _ f).
Qed.



(** ** Further properties of the handlers *)

Lemma add_keeps_items req s : docs s ⊆ docs (store_after addItem req s).
Proof.
  destruct (addItem_cases req) as [Hrej | (n & Hn & Hne)].
  - by rewrite docs_after_addItem_rejected.
  - rewrite (docs_after_addItem_accepted _ _ n) by done.
    destruct (reachable s); [|done].
    apply insert_subseteq, fresh_id_unused.
Qed.

(** X5. Add answers 500 "Error saving item" exactly when the body was
    left undefined, or the submitted name is an array or an object the
    schema cannot cast to text, or a name was accepted and the store could
    not be reached; in every other case it answers with the redirect to
    [/]. A name that cannot be cast never reaches the store. *)
Theorem add_response_decided req s :
  response_of addItem req s =
    match body req with
    | NoBody => mkResponse 500 (Some (Text "Error saving item"))
    | Parsed name =>
        if falsy name then mkResponse 302 (Some (Redirected "/"))
        else
          match name ≫= ItemModel.cast_string with
          | Some _ =>
              if reachable s
              then mkResponse 302 (Some (Redirected "/"))
              else mkResponse 500 (Some (Text "Error saving item"))
          | None => mkResponse 500 (Some (Text "Error saving item"))
          end
    end
  ∧ (∀ v, body req = Parsed (Some v) → ItemModel.cast_string v = None →
       store_after addItem req s = s).
Proof.
  unfold response_of, store_after. rewrite handle_addItem.
  unfold accepted_name, turned_away. split.
  - destruct (body req) as [|[v|]]; [done | | done].
    destruct (falsy (Some v)) eqn:Hf; [done|]. simpl.
    destruct (ItemModel.cast_string v) as [n|] eqn:Hcast; [|done].
    destruct (decide (n = "")) as [->|_]; [|by destruct (reachable s)].
    destruct v as [t|items|entries]; simpl in *.
    + injection Hcast as ->. by rewrite bool_decide_eq_true_2 in Hf.
    + done.
    + destruct (ItemModel.entry_id entries) as [[t|?|?]|]; try done.
      destruct (decide (t = "")); [done|]. by injection Hcast as ->.
  - intros v -> Hcast. rewrite Hcast. by destruct (falsy (Some v)).
Qed.

Lemma add_response_decided_witness :
  store_after addItem two_names_request sample_store = sample_store
  ∧ response_of addItem two_names_request sample_store
    = mkResponse 500 (Some (Text "Error saving item")).
Proof.
  destruct (add_response_decided two_names_request sample_store)
    as [Hresp Hstore].
  split; [|exact Hresp].
  exact (Hstore (FArray [FText "a"; FText "b"]) eq_refl eq_refl).
Defined.

(** X6. Delete answers 500 "Error deleting item" exactly when the
    identifier is malformed or the store could not be reached, and the
    redirect otherwise; a malformed identifier is turned away before any
    round trip, so the store, log included, is left as it was even when
    it is reachable. *)
Theorem delete_fails_on_bad_id_or_unreachable req s :
  response_of deleteItem req s =
    match params_id req with
    | ValidId _ =>
        if reachable s
        then mkResponse 302 (Some (Redirected "/"))
        else mkResponse 500 (Some (Text "Error deleting item"))
    | MalformedId _ => mkResponse 500 (Some (Text "Error deleting item"))
    end
  ∧ (∀ raw, params_id req = MalformedId raw →
       store_after deleteItem req s = s).
Proof.
  unfold response_of, store_after. split.
  - destruct (params_id req) as [i|raw] eqn:Hid.
    + rewrite (handle_deleteItem_valid _ _ i) by done. simpl.
      by destruct (reachable s).
    + by rewrite (handle_deleteItem_malformed _ _ raw).
  - intros raw Hid. by rewrite (handle_deleteItem_malformed _ _ raw).
Qed.

Lemma delete_fails_on_bad_id_or_unreachable_witness :
  store_after deleteItem (delete_request (MalformedId "42")) sample_store
    = sample_store.
Proof.
  destruct (delete_fails_on_bad_id_or_unreachable
              (delete_request (MalformedId "42")) sample_store) as [_ Hbad].
  exact (Hbad "42" eq_refl).
Defined.

(** X7. Add and then Delete of the identifier the new item was given puts
    the items back as they were. *)
Theorem add_then_delete_restores req s n :
  reachable s = true →
  body req = Parsed (Some (FText n)) → n ≠ "" →
  ∃ i, docs s !! i = None
       ∧ docs (store_after addItem req s) !! i = Some n
       ∧ ∀ req', params_id req' = ValidId i →
           docs (store_after deleteItem req' (store_after addItem req s))
             = docs s.
Proof.
  intros Hup Hn Hne. exists (fresh (dom (docs s))).
  pose proof (fresh_id_unused (docs s)) as Hfresh.
  rewrite (docs_after_addItem_truthy _ _ n) by done. rewrite Hup.
  split_and!; [done | apply lookup_insert_eq |].
  intros req' Hid. rewrite docs_after_deleteItem, Hid.
  rewrite (reachable_after OpAdd), Hup.
  rewrite (docs_after_addItem_truthy _ _ n) by done. rewrite Hup.
  by apply delete_insert_id.
Qed.

Lemma add_then_delete_restores_witness :
  ∃ i, docs sample_store !! i = None
       ∧ docs (store_after deleteItem (delete_request (ValidId i))
                 (store_after addItem (add_request (Some "Tea"))
                    sample_store))
         = docs sample_store.
Proof.
  assert ("Tea" ≠ "") as Hne by discriminate.
  destruct (add_then_delete_restores (add_request (Some "Tea")) sample_store
              "Tea" eq_refl eq_refl Hne) as (i & Hnone & _ & Hback).
  exists i. split; [exact Hnone|].
  exact (Hback (delete_request (ValidId i)) eq_refl).
Defined.

(** X8. Two Deletes leave the same items in either order, whatever the two
    identifiers are and whether or not the store is reachable. *)
Theorem deletes_commute r1 r2 s :
  docs (delete_both r1 r2 s) = docs (delete_both r2 r1 s).
Proof.
  unfold delete_both.
  rewrite !docs_after_deleteItem, !(reachable_after OpDelete).
  destruct (params_id r1) as [i|], (params_id r2) as [j|],
    (reachable s); try done.
  apply delete_delete.
Qed.

(** X9. Add never removes or changes an item the store holds and adds at
    most one; Delete never adds or changes an item and removes at most
    one. *)
Theorem add_grows_delete_shrinks req s :
  docs s ⊆ docs (store_after addItem req s)
  ∧ count (store_after addItem req s) ≤ S (count s)
  ∧ docs (store_after deleteItem req s) ⊆ docs s
  ∧ count s ≤ S (count (store_after deleteItem req s)).
Proof.
  unfold count. split_and!.
  - apply add_keeps_items.
  - destruct (addItem_cases req) as [Hrej | (n & Hn & Hne)].
    + rewrite docs_after_addItem_rejected by done. lia.
    + rewrite (docs_after_addItem_accepted _ _ n) by done.
      destruct (reachable s); [|lia].
      rewrite map_size_insert_None by apply fresh_id_unused. lia.
  - rewrite docs_after_deleteItem.
    destruct (params_id req) as [i|]; [|done].
    destruct (reachable s); [|done]. apply delete_subseteq.
  - rewrite docs_after_deleteItem.
    destruct (params_id req) as [i|]; [|lia].
    destruct (reachable s); [|lia].
    rewrite map_size_delete. destruct (docs s !! i); simpl; lia.
Qed.

(** X12. After a Delete that reaches the store and finds the identifier,
    List shows the former items without the deleted one: putting the
    deleted item back gives the former list up to order, and no item shown
    carries the deleted identifier. *)
Theorem delete_then_list_omits_item req req' s i n :
  reachable s = true →
  params_id req = ValidId i →
  docs s !! i = Some n →
  ∃ items,
    listed (response_of getItems req' (store_after deleteItem req s))
      = Some items
    ∧ mkItem i n :: items ≡ₚ ItemModel.documents (docs s)
    ∧ ∀ it, it ∈ items → _id it ≠ i.
Proof.
  intros Hup Hid Hi.
  exists (ItemModel.documents (delete i (docs s))).
  unfold response_of. rewrite handle_getItems.
  rewrite (reachable_after OpDelete), Hup.
  rewrite docs_after_deleteItem, Hid, Hup. split_and!.
  - done.
  - unfold ItemModel.documents.
    rewrite <- (map_to_list_delete (docs s) i n) by done.
    by rewrite fmap_cons.
  - intros it Hit Heq. unfold ItemModel.documents in Hit.
    apply list_elem_of_fmap in Hit as ([j v] & -> & Hjv).
    simpl in Heq. subst j.
    apply elem_of_map_to_list in Hjv.
    by rewrite lookup_delete_eq in Hjv.
Qed.

Lemma delete_then_list_omits_item_witness :
  ∃ items,
    listed (response_of getItems list_request
              (store_after deleteItem (delete_request (ValidId 3))
                 sample_store)) = Some items
    ∧ mkItem 3 "Eggs" :: items ≡ₚ ItemModel.documents (docs sample_store).
Proof.
  destruct (delete_then_list_omits_item (delete_request (ValidId 3))
              list_request sample_store 3 "Eggs" eq_refl eq_refl eq_refl)
    as (items & Hl & Hp & _).
  by exists items.
Defined.

(** X13. The schema alone keeps names non-empty: [save] turns away a
    missing or empty name before any round trip and leaves the store as
    it was, and whatever name it is given the items keep non-empty names
    afterwards. *)
Theorem schema_keeps_names_nonempty name c :
  (name = None ∨ name = Some (FText "") →
     ItemModel.save name c = (Throw ValidatorError, c))
  ∧ (named (store c) → named (store (ItemModel.save name c).2)).
Proof.
  split.
  - intros [-> | ->]; by destruct c.
  - intros Hnamed. destruct name as [v|]; [|by destruct c].
    unfold ItemModel.save, ItemModel.validate, mbind, Js_bind, get_store.
    destruct (ItemModel.cast_string v) as [n|]; [|by destruct c].
    destruct (decide (n = "")) as [->|Hne]; [by destruct c|].
    destruct c as [[d [] l] r]; simpl; [|done].
    unfold named in *. simpl in *. by apply map_Forall_insert_2.
Qed.

Lemma schema_keeps_names_nonempty_witness :
  ItemModel.save (Some (FText "")) (mkCtx sample_store fresh_response)
    = (Throw ValidatorError, mkCtx sample_store fresh_response)
  ∧ named (store (ItemModel.save (Some (FText "Tea"))
                    (mkCtx sample_store fresh_response)).2).
Proof.
  split.
  - apply (schema_keeps_names_nonempty (Some (FText ""))
             (mkCtx sample_store fresh_response)).
    right. reflexivity.
  - apply (schema_keeps_names_nonempty (Some (FText "Tea"))
             (mkCtx sample_store fresh_response)).
    exact named_sample_store.
Defined.

(** ** Further properties of the running application *)

Lemma db_boot env s : db (boot env s) = s.
Proof.
  destruct (LISTEN env) as [|f] eqn:Hl.
  - by rewrite boot_unfold.
  - by rewrite (boot_failed _ _ f).
Qed.



(** X2. Through the application as it is wired nothing is ever deleted:
    whatever comes in, every item the store held at start-up is still
    there, unchanged, at the end, and the number of items has not gone
    down. *)
Theorem wired_app_never_deletes env s inputs :
  docs s ⊆ docs (db (run env s inputs))
  ∧ count s ≤ count (db (run env s inputs)).
Proof.
  assert (docs s ⊆ docs (db (run env s inputs))) as Hsub.
  { unfold run.
    apply (steps_invariant (λ st, docs s ⊆ docs st)).
    - done.
    - intros req st Hst. by rewrite docs_after_getItems.
    - intros req st Hst. etrans; [exact Hst|].
      apply add_keeps_items.
    - by rewrite db_boot. }
  split; [done|]. by apply map_subseteq_size.
Qed.

(** X4. If every item has a non-empty name when the process starts, every
    item has one after anything that comes in. *)
Theorem run_keeps_names_nonempty env s inputs :
  named s → named (db (run env s inputs)).
Proof.
  intros Hnamed. unfold run. apply (steps_invariant named).
  - done.
  - intros req st Hst. unfold named. by rewrite docs_after_getItems.
  - intros req st Hst. unfold named in *.
    destruct (addItem_cases req) as [Hrej | (n & Hn & Hne)].
    + by rewrite docs_after_addItem_rejected.
    + rewrite (docs_after_addItem_accepted _ _ n) by done.
      destruct (reachable st); [|done].
      by apply map_Forall_insert_2.
  - by rewrite db_boot.
Qed.

Lemma run_keeps_names_nonempty_witness :
  named (db (run default_env sample_store
               [ Incoming (add_request (Some "Tea")) true;
                 ConnectSettles true;
                 Incoming (add_request (Some "")) true ])).
Proof.
  apply (run_keeps_names_nonempty default_env sample_store).
  exact named_sample_store.
Defined.



(** X11. Through the router, a [POST /add] with a non-empty name followed
    by a [GET /], both reaching the store, is answered with the page
    showing the items held before and one new item with that name. *)
Theorem add_then_list_through_router radd rlist n p port :
  status p = Running → listening p = Some port →
  method radd = POST → url radd = "/add" →
  body radd = Parsed (Some (FText n)) → n ≠ "" →
  method rlist = GET → url rlist = "/" →
  ∃ i items,
    last (trace (steps [Incoming radd true; Incoming rlist true] p))
      = Some (Responded rlist
                (Some (mkResponse 200 (Some (Rendered "index" items)))))
    ∧ docs (db p) !! i = None
    ∧ items ≡ₚ ItemModel.documents (docs (db p)) ++ [mkItem i n].
Proof.
  intros Hst Hl Hm1 Hu1 Hn Hne Hm2 Hu2.
  exists (fresh (dom (docs (db p)))),
    (ItemModel.documents (<[fresh (dom (docs (db p))) := n]> (docs (db p)))).
  pose proof (fresh_id_unused (docs (db p))) as Hfresh.
  unfold steps. simpl.
  rewrite (react_incoming_unfold radd true p port) by done.
  assert (itemRoutes radd = Some OpAdd) as ->.
  { unfold itemRoutes. by rewrite Hm1, Hu1. }
  cbv zeta.
  rewrite (react_incoming_unfold rlist true _ port) by done.
  assert (itemRoutes rlist = Some OpList) as ->.
  { unfold itemRoutes. by rewrite Hm2, Hu2. }
  cbv zeta. simpl trace. rewrite last_snoc.
  split_and!; [|done|by apply documents_insert].
  do 3 f_equal. unfold response_of. simpl handler_of.
  rewrite handle_getItems. simpl.
  unfold store_after.
  by rewrite (handle_addItem_truthy _ _ n).
Qed.

Lemma add_then_list_through_router_witness :
  ∃ i items,
    last (trace (steps [ Incoming (add_request (Some "Tea")) true;
                         Incoming list_request true ]
                   (boot default_env sample_store)))
      = Some (Responded list_request
                (Some (mkResponse 200 (Some (Rendered "index" items)))))
    ∧ items ≡ₚ ItemModel.documents (docs sample_store) ++ [mkItem i "Tea"].
Proof.
  assert ("Tea" ≠ "") as Hne by discriminate.
  destruct (add_then_list_through_router
              (add_request (Some "Tea")) list_request "Tea"
              (boot default_env sample_store) "3000"
              eq_refl eq_refl eq_refl eq_refl eq_refl Hne eq_refl eq_refl)
    as (i & items & Hlast & _ & Hperm).
  by exists i, items.
Defined.

(** X14. Once the failed connection has ended the process, nothing that
    comes in reaches the store: it is left as the requests served before
    the failure left it. *)
Theorem no_store_access_after_fatal_exit env s pre post :
  first_settlement pre = None →
  db (run env s (pre ++ ConnectSettles false :: post))
    = db (run env s pre).
Proof.
  intros Hpre.
  destruct (LISTEN env) as [|f] eqn:Hl.
  - destruct (steps_pending pre (boot env s) Hpre) as (Hst & Hc & _);
      [by rewrite (boot_unfold _ _ Hl) .. |].
    unfold run. rewrite steps_app.
    change (steps (ConnectSettles false :: post) (steps pre (boot env s)))
      with (steps post (react (ConnectSettles false)
                          (steps pre (boot env s)))).
    rewrite (steps_exited _ _ 1) by by rewrite react_settles_false.
    apply react_settles_db.
  - by rewrite !(run_failed _ _ _ f).
Qed.

Lemma no_store_access_after_fatal_exit_witness :
  db (run default_env sample_store
        ([Incoming (add_request (Some "Tea")) false]
           ++ ConnectSettles false
           :: [Incoming (add_request (Some "Rice")) true]))
  = db (run default_env sample_store
          [Incoming (add_request (Some "Tea")) false]).
Proof.
  apply (no_store_access_after_fatal_exit default_env sample_store
           [Incoming (add_request (Some "Tea")) false]
           [Incoming (add_request (Some "Rice")) true]).
  reflexivity.
Defined.

(** ** Start-up when the connection fails *)




